(** * mitt: a tiny event emitter (src/index.ts)

    A shallow embedding of the emitter returned by [mitt()]: the handler
    map [all], the three methods [on], [off] and [emit], and the factory.

    - The contents of the [Map] object [all] are a [gmap] from event types
      to handler arrays.  Arrays are held by value: the emitter never keeps
      an array reference across a call to a handler ([emit] iterates over a
      private [slice()] copy and [off] re-reads [all.get(type)]), and every
      array it stores is one it has just made.  The model therefore covers
      maps whose keys hold distinct arrays, as all maps built through
      [on], [off] and [emit] are; a map handed to [mitt] in which a caller
      has stored one array under two keys is outside it, and so is the
      order in which a [Map] enumerates its keys.  The properties below
      speak of the list of a key and of the set of keys only.
    - Handlers are JavaScript functions, compared by identity ([===]); a
      function is a name [Fn], and what it does when called is given by a
      [Program]: a script of calls to the emitter's own methods, possibly
      ending in a [throw].  This is how re-entrant [on]/[off]/[emit] and
      failing handlers are expressed.
    - [emit] is recursive through the handlers it calls, so it takes fuel:
      the bound on the depth of nested [emit] calls.
    - Every call of a handler is recorded, with the list item it was read
      from and its arguments; the record is what the properties below talk
      about when they say that a handler is, or is not, invoked. *)

From Stdlib Require Import ZArith Lia.
From stdpp Require Import base option list gmap strings.

Open Scope Z_scope.

(** ** JavaScript values *)

(** [export type EventType = string | symbol] *)
Inductive EventType :=
| TStr (s : string)
| TSym (id : nat).

#[global] Instance EventType_eq_dec : EqDecision EventType.
Proof. solve_decision. Defined.

#[global] Instance EventType_countable : Countable EventType.
Proof.
  refine (inj_countable'
            (λ t, match t with TStr s => inl s | TSym n => inr n end)
            (λ x, match x with inl s => TStr s | inr n => TSym n end) _).
  by intros [].
Defined.

(** The values a context ([ctx?: any]) or an event payload can take.
    Numbers are the integers and [NaN]; objects are their addresses. *)
Inductive Value :=
| VUndefined
| VNull
| VBool (b : bool)
| VNum (n : Z)
| VNaN
| VStr (s : string)
| VSym (id : nat)
| VObj (addr : nat).

#[global] Instance Value_eq_dec : EqDecision Value.
Proof. solve_decision. Defined.

(** [v === w]: identity on every value but [NaN], which equals nothing. *)
Definition strict_eq (v w : Value) : bool :=
  match v, w with
  | VNaN, _ | _, VNaN => false
  | _, _ => bool_decide (v = w)
  end.

(** An event type passed as an argument to a wildcard handler. *)
Definition key_value (type : EventType) : Value :=
  match type with
  | TStr s => VStr s
  | TSym id => VSym id
  end.

(** The reserved key ['*']. *)
Definition wildcard : EventType := TStr "*".

(** ** Array primitives *)

(** [Array.prototype.findIndex]: the index of the first element that
    satisfies [p], or [-1]. *)
Fixpoint findIndex {A} (p : A → bool) (l : list A) : Z :=
  match l with
  | [] => -1
  | x :: l' =>
      if p x then 0
      else let i := findIndex p l' in if i <? 0 then -1 else i + 1
  end.

(** [z >>> 0]: conversion to an unsigned 32-bit integer. *)
Definition toUint32 (z : Z) : Z := z mod 2 ^ 32.

(** [l.splice(start, deleteCount)], as the array it leaves behind. *)
Definition splice {A} (start deleteCount : Z) (l : list A) : list A :=
  let len := Z.of_nat (length l) in
  let actualStart :=
    if start <? 0 then Z.max (len + start) 0 else Z.min start len in
  let actualDeleteCount := Z.min (Z.max deleteCount 0) (len - actualStart) in
  take (Z.to_nat actualStart) l
    ++ drop (Z.to_nat (actualStart + actualDeleteCount)) l.

(** ** The handler map *)

(** A function, as its identity. *)
Definition Fn := nat.

(** [export type HandlerListItem<T> = { fn: T, ctx?: any, once?: boolean }];
    an absent [ctx] is [undefined], an absent [once] is falsy. *)
Record HandlerListItem := {
  fn : Fn;
  ctx : Value;
  once : bool
}.

#[global] Instance HandlerListItem_eq_dec : EqDecision HandlerListItem.
Proof. solve_decision. Defined.

Abbreviation EventHandlerList := (list HandlerListItem).
Abbreviation EventHandlerMap := (gmap EventType (list HandlerListItem)).

(** The test of [off]'s [findIndex]:
    [item => item.fn === handler && item.ctx === context]. *)
Definition matches (handler : Fn) (context : Value) (item : HandlerListItem)
  : bool :=
  Nat.eqb (fn item) handler && strict_eq (ctx item) context.

(** [on(type, handler, context?, once?)] *)
Definition on (type : EventType) (handler : Fn) (context : Value)
    (once : bool) (all : EventHandlerMap) : EventHandlerMap :=
  let handlers := all !! type in
  let _handler := {| fn := handler; ctx := context; once := once |} in
  match handlers with
  | Some handlers => <[type := handlers ++ [_handler]]> all
  | None => <[type := [_handler]]> all
  end.

(** [off(type, handler?, context?)] *)
Definition off (type : EventType) (handler : option Fn) (context : Value)
    (all : EventHandlerMap) : EventHandlerMap :=
  let handlers := all !! type in
  match handlers with
  | Some handlers =>
      match handler with
      | Some handler =>
          <[type := splice
                      (toUint32 (findIndex (matches handler context) handlers))
                      1 handlers]> all
      | None => <[type := []]> all
      end
  | None => all
  end.

(** The handlers listed under [type]; none when the key is absent. *)
Definition listeners (type : EventType) (all : EventHandlerMap)
  : list HandlerListItem :=
  default [] (all !! type).

(** ** Calling handlers *)

(** One invocation of a handler: the list item it was read from (its [fn]
    is the callee, its [ctx] the receiver) and the arguments. *)
Record Call := {
  item : HandlerListItem;
  args : list Value
}.

(** The emitter's store together with the calls made so far. *)
Record State := {
  all : EventHandlerMap;
  calls : list Call
}.

Definition update_all (f : EventHandlerMap → EventHandlerMap) (s : State)
  : State :=
  {| all := f (all s); calls := calls s |}.

Definition record_call (c : Call) (s : State) : State :=
  {| all := all s; calls := calls s ++ [c] |}.

(** How a call ends: it returns, or it throws [err]. *)
Inductive Completion :=
| Normal
| Throw (err : Value).

(** [None]: the fuel ran out. *)
Abbreviation Result := (option (Completion * State)).

(** What a handler may do with the emitter while it runs. *)
Inductive Action :=
| ActOn (type : EventType) (handler : Fn) (context : Value) (once : bool)
| ActOff (type : EventType) (handler : option Fn) (context : Value)
| ActEmit (type : EventType) (evt : Value)
| ActThrow (err : Value).

(** The body of every function: its script, given the receiver and the
    arguments of the call. *)
Definition Program := Fn → Value → list Value → list Action.

(** [Array.prototype.map(callback)] as [emit] uses it: [callback] runs on
    the elements in order; the first one that throws ends the loop. *)
Fixpoint array_map {A} (callback : A → State → Result) (l : list A)
    (s : State) : Result :=
  match l with
  | [] => Some (Normal, s)
  | x :: l' =>
      match callback x s with
      | Some (Normal, s') => array_map callback l' s'
      | r => r
      end
  end.

Section Emitter.
Variable prog : Program.

Section Handlers.
(** [emit] as handlers see it. *)
Variable emit : EventType → Value → State → Result.

Fixpoint run_actions (body : list Action) (s : State) : Result :=
  match body with
  | [] => Some (Normal, s)
  | ActOn type handler context once :: body' =>
      run_actions body' (update_all (on type handler context once) s)
  | ActOff type handler context :: body' =>
      run_actions body' (update_all (off type handler context) s)
  | ActEmit type evt :: body' =>
      match emit type evt s with
      | Some (Normal, s') => run_actions body' s'
      | r => r
      end
  | ActThrow err :: _ => Some (Throw err, s)
  end.

(** [fn.call(ctx, ...args)] *)
Definition call (handlerListItem : HandlerListItem) (args : list Value)
    (s : State) : Result :=
  run_actions
    (prog (fn handlerListItem) (ctx handlerListItem) args)
    (record_call {| item := handlerListItem; args := args |} s).

(** The arrow function of [emit]'s loops over the list of [type]:
    [fn.call(ctx, ...args); if (once) this.off(type, fn, ctx)].  [emit] is
    called as a method, so [this] is the emitter and [this.off] its [off]. *)
Definition invoke (type : EventType) (args : list Value)
    (handlerListItem : HandlerListItem) (s : State) : Result :=
  match call handlerListItem args s with
  | Some (Normal, s') =>
      Some (Normal,
            if once handlerListItem
            then update_all
                   (off type (Some (fn handlerListItem))
                      (ctx handlerListItem)) s'
            else s')
  | r => r
  end.

(** [handlers = all.get(type); if (handlers) handlers.slice().map(...)] *)
Definition dispatch (type : EventType) (args : list Value) (s : State)
  : Result :=
  match all s !! type with
  | Some handlers => array_map (invoke type args) handlers s
  | None => Some (Normal, s)
  end.

End Handlers.

(** [emit(type, evt?)], called as a method of the emitter: first the
    handlers of [type], then those of ['*']. *)
Fixpoint emit (fuel : nat) (type : EventType) (evt : Value) (s : State)
  : Result :=
  match fuel with
  | O => None
  | S fuel' =>
      match dispatch (emit fuel') type [evt] s with
      | Some (Normal, s') =>
          dispatch (emit fuel') wildcard [key_value type; evt] s'
      | r => r
      end
  end.

End Emitter.

(** ** Reference operations on lists

    What the array code is meant to compute, written on lists directly. *)

(** [l] without its first element that satisfies [p]. *)
Fixpoint remove_first {A} (p : A → bool) (l : list A) : list A :=
  match l with
  | [] => []
  | x :: l' => if p x then l' else x :: remove_first p l'
  end.

(** A JavaScript array has fewer than [2^32] elements. *)
Definition array_sized {A} (l : list A) : Prop :=
  Z.of_nat (length l) < 2 ^ 32.

(** The live list of a loop that fired every item of [snapshot] in turn,
    each [once] item deleting the first item that matches it. *)
Definition once_sweep (snapshot live : list HandlerListItem)
  : list HandlerListItem :=
  foldl (λ live r,
           if once r then remove_first (matches (fn r) (ctx r)) live else live)
        live snapshot.

(** The handler map after a loop over [snapshot] in which every call
    returned without touching the map: each [once] item called
    [off(type, fn, ctx)]. *)
Definition auto_remove (type : EventType) (snapshot : list HandlerListItem)
    (all : EventHandlerMap) : EventHandlerMap :=
  foldl (λ all r, if once r then off type (Some (fn r)) (ctx r) all else all)
        all snapshot.

(** A handler that does nothing with the emitter and returns. *)
Definition quiet (prog : Program) (r : HandlerListItem) : Prop :=
  ∀ args, prog (fn r) (ctx r) args = [].

(** The call of list item [r] with the arguments [args]. *)
Definition called (args : list Value) (r : HandlerListItem) : Call :=
  {| item := r; args := args |}.

(** Every list of the map fits in an array. *)
Definition arrays_sized (all : EventHandlerMap) : Prop :=
  ∀ type, array_sized (listeners type all).

(** An action that changes registrations only: a call to [on] or [off]. *)
Definition registers_only (a : Action) : Prop :=
  match a with
  | ActOn _ _ _ _ | ActOff _ _ _ => True
  | ActEmit _ _ | ActThrow _ => False
  end.

(** What a caller of [emit] observes: how it ended and the calls made. *)
Definition observed (r : Result) : option (Completion * list Call) :=
  match r with
  | Some (c, s) => Some (c, calls s)
  | None => None
  end.

(** ** The factory and the exposed map *)

(** One call of a method that changes registrations. *)
Inductive MethodCall :=
| CallOn (type : EventType) (handler : Fn) (context : Value) (once : bool)
| CallOff (type : EventType) (handler : option Fn) (context : Value).

Definition method (c : MethodCall) : EventHandlerMap → EventHandlerMap :=
  match c with
  | CallOn type handler context once => on type handler context once
  | CallOff type handler context => off type handler context
  end.

(** What a holder of the map can do to it without the emitter. *)
Inductive Mutation :=
| MapSet (type : EventType) (handlers : list HandlerListItem)
| ArrayPush (type : EventType) (item : HandlerListItem)
| ArraySplice (type : EventType) (start deleteCount : Z).

(** [all.set(type, handlers)], [all.get(type).push(item)] and
    [all.get(type).splice(start, deleteCount)]; the last two need the key
    to be present. *)
Definition mutate (all : EventHandlerMap) (m : Mutation) : EventHandlerMap :=
  match m with
  | MapSet type handlers => <[type := handlers]> all
  | ArrayPush type item =>
      match all !! type with
      | Some handlers => <[type := handlers ++ [item]]> all
      | None => all
      end
  | ArraySplice type start deleteCount =>
      match all !! type with
      | Some handlers => <[type := splice start deleteCount handlers]> all
      | None => all
      end
  end.

(** The direct manipulation of the map that stands for a method call: push
    to the list or set a new one; set an empty list; splice out the first
    item with that callback and context, found by position. *)
Definition by_hand (c : MethodCall) (all : EventHandlerMap) : list Mutation :=
  match c with
  | CallOn type handler context once =>
      let item := {| fn := handler; ctx := context; once := once |} in
      match all !! type with
      | Some _ => [ArrayPush type item]
      | None => [MapSet type [item]]
      end
  | CallOff type None _ =>
      match all !! type with
      | Some _ => [MapSet type []]
      | None => []
      end
  | CallOff type (Some handler) context =>
      match list_find (λ r, matches handler context r = true)
                      (listeners type all) with
      | Some (i, _) => [ArraySplice type (Z.of_nat i) 1]
      | None => []
      end
  end.

Definition with_calls (all : EventHandlerMap) (calls : list Call) : State :=
  {| all := all; calls := calls |}.

Module Factory.

(** A [Map] object, by reference. *)
Definition Ref := nat.

(** The [Map] objects of the running program. *)
Abbreviation Heap := (gmap Ref EventHandlerMap).

(** The returned object; its methods close over [all]. *)
Record Emitter := { all : Ref }.

(** The contents of a [Map] object. *)
Definition contents (h : Heap) (l : Ref) : EventHandlerMap :=
  default ∅ (h !! l).

(** [new Map()] *)
Definition new_Map (h : Heap) : Ref * Heap :=
  let l := fresh (dom h) in (l, <[l := ∅]> h).

(** [mitt(all?)]: [all = all || new Map(); return { all, on, off, emit }] *)
Definition mitt (all : option Ref) (h : Heap) : Emitter * Heap :=
  match all with
  | Some all => ({| all := all |}, h)
  | None => let '(l, h') := new_Map h in ({| all := l |}, h')
  end.

(** [emitter.on(...)] and [emitter.off(...)] *)
Definition invoke_method (e : Emitter) (c : MethodCall) (h : Heap) : Heap :=
  <[all e := method c (contents h (all e))]> h.

(** [emitter.emit(type, evt)] *)
Definition invoke_emit (prog : Program) (fuel : nat) (e : Emitter)
    (type : EventType) (evt : Value) (h : Heap) (calls : list Call)
  : option (Completion * Heap * list Call) :=
  match emit prog fuel type evt (with_calls (contents h (all e)) calls) with
  | Some (c, Build_State all' calls') => Some (c, <[all e := all']> h, calls')
  | None => None
  end.

(** Direct manipulation of the map the reference [l] designates. *)
Definition mutate_at (l : Ref) (h : Heap) (m : Mutation) : Heap :=
  <[l := mutate (contents h l) m]> h.

(** The same registrations made without the emitter, on the map itself. *)
Definition by_hand_at (l : Ref) (h : Heap) (c : MethodCall) : Heap :=
  foldl (mutate_at l) h (by_hand c (contents h l)).

End Factory.

(** The key a method call works on. *)
Definition method_key (c : MethodCall) : EventType :=
  match c with
  | CallOn type _ _ _ | CallOff type _ _ => type
  end.

(** ** Example handlers *)

Module Scenario.

Definition foo : EventType := TStr "foo".

(** Three plain handlers, registered without context. *)
Definition A : HandlerListItem :=
  {| fn := 1%nat; ctx := VUndefined; once := false |}.
Definition B : HandlerListItem :=
  {| fn := 2%nat; ctx := VUndefined; once := false |}.
Definition C : HandlerListItem :=
  {| fn := 3%nat; ctx := VUndefined; once := false |}.

(** [A] registered as a one-time handler. *)
Definition A_once : HandlerListItem :=
  {| fn := 1%nat; ctx := VUndefined; once := true |}.
Definition B_once : HandlerListItem :=
  {| fn := 2%nat; ctx := VUndefined; once := true |}.

(** No handler does anything with the emitter. *)
Definition idle : Program := λ _ _ _, [].

(** [A] deregisters [B]: [() => emitter.off('foo', B)]. *)
Definition a_removes_b : Program :=
  λ f _ _,
    match f with
    | 1%nat => [ActOff foo (Some 2%nat) VUndefined]
    | _ => []
    end.

(** [B] fails: [() => { throw 'boom' }]. *)
Definition b_throws : Program :=
  λ f _ _,
    match f with
    | 2%nat => [ActThrow (VStr "boom")]
    | _ => []
    end.

Definition start (all : EventHandlerMap) : State :=
  {| all := all; calls := [] |}.

End Scenario.

(** * Properties *)

(** ** Arrays *)

Section Arrays.
Context {A : Type}.
Implicit Types (p : A → bool) (l pre post : list A).

Lemma findIndex_range p l : -1 ≤ findIndex p l < Z.of_nat (length l).
Proof.
  induction l as [|x l IH]; simpl; [lia|].
  destruct (p x); [lia|].
  destruct (Z.ltb_spec (findIndex p l) 0); lia.
Qed.

Lemma findIndex_none p l :
  Forall (λ x, p x = false) l → findIndex p l = -1.
Proof.
  induction 1 as [|x l Hx _ IH]; simpl; [done|].
  by rewrite Hx, IH.
Qed.

Lemma findIndex_first p pre x post :
  Forall (λ y, p y = false) pre → p x = true →
  findIndex p (pre ++ x :: post) = Z.of_nat (length pre).
Proof.
  intros Hpre Hx. induction Hpre as [|y pre Hy _ IH]; simpl.
  - by rewrite Hx.
  - rewrite Hy, IH.
    destruct (Z.ltb_spec (Z.of_nat (length pre)) 0); lia.
Qed.

(** A list either has no element that satisfies [p], or splits at the
    first one. *)
Lemma first_match_cases p l :
  Forall (λ x, p x = false) l
  ∨ ∃ pre x post,
      l = pre ++ x :: post ∧ Forall (λ y, p y = false) pre ∧ p x = true.
Proof.
  induction l as [|x l [IH|(pre & y & post & -> & Hpre & Hy)]].
  - by left.
  - destruct (p x) eqn:Hx.
    + right. by exists [], x, l.
    + left. by constructor.
  - right. destruct (p x) eqn:Hx.
    + by exists [], x, (pre ++ y :: post).
    + exists (x :: pre), y, post. split_and!; [done | by constructor | done].
Qed.

Lemma splice_at pre x post :
  splice (Z.of_nat (length pre)) 1 (pre ++ x :: post) = pre ++ post.
Proof.
  unfold splice. rewrite length_app. simpl length.
  destruct (Z.ltb_spec (Z.of_nat (length pre)) 0); [lia|].
  rewrite Z.min_l by lia.
  rewrite (Z.max_l 1 0) by lia. rewrite Z.min_l by lia.
  rewrite Nat2Z.id.
  replace (Z.to_nat (Z.of_nat (length pre) + 1)) with (S (length pre)) by lia.
  rewrite take_app_length. f_equal.
  rewrite (cons_middle x pre post), (assoc_L (++)).
  apply drop_app_length'. rewrite length_app. simpl. lia.
Qed.

Lemma splice_beyond start l :
  Z.of_nat (length l) ≤ start → splice start 1 l = l.
Proof.
  intros Hstart. unfold splice.
  destruct (Z.ltb_spec start 0); [lia|].
  rewrite (Z.min_r start) by lia.
  rewrite Z.sub_diag, (Z.max_l 1 0), (Z.min_r 1 0), Z.add_0_r by lia.
  rewrite Nat2Z.id. by rewrite take_drop.
Qed.

Lemma remove_first_none p l :
  Forall (λ x, p x = false) l → remove_first p l = l.
Proof.
  induction 1 as [|x l Hx _ IH]; simpl; [done|].
  by rewrite Hx, IH.
Qed.

Lemma remove_first_first p pre x post :
  Forall (λ y, p y = false) pre → p x = true →
  remove_first p (pre ++ x :: post) = pre ++ post.
Proof.
  intros Hpre Hx. induction Hpre as [|y pre Hy _ IH]; simpl.
  - by rewrite Hx.
  - by rewrite Hy, IH.
Qed.

(** [l.splice(l.findIndex(p) >>> 0, 1)] deletes the first element that
    satisfies [p], and nothing when there is none: [-1 >>> 0] is
    [2^32 - 1], past the end of every array. *)
Lemma splice_findIndex p l :
  array_sized l →
  splice (toUint32 (findIndex p l)) 1 l = remove_first p l.
Proof.
  unfold array_sized, toUint32. intros Hsize.
  destruct (first_match_cases p l) as [Hnone|(pre & x & post & -> & Hpre & Hx)].
  - rewrite findIndex_none, remove_first_none by done.
    apply splice_beyond. change ((-1) mod 2 ^ 32) with (2 ^ 32 - 1). lia.
  - rewrite findIndex_first, remove_first_first by done.
    rewrite Z.mod_small; [apply splice_at|].
    rewrite length_app in Hsize. simpl in Hsize. lia.
Qed.

Lemma remove_first_app_l p l k :
  Exists (λ x, p x = true) l →
  remove_first p (l ++ k) = remove_first p l ++ k.
Proof.
  induction 1 as [x l Hx|x l _ IH]; simpl.
  - by rewrite Hx.
  - destruct (p x); [done|]. by rewrite IH.
Qed.

Lemma remove_first_sublist p l : sublist (remove_first p l) l.
Proof.
  induction l as [|x l IH]; simpl; [done|].
  destruct (p x); by constructor.
Qed.

Lemma remove_first_length p l :
  (length (remove_first p l) ≤ length l)%nat.
Proof. apply sublist_length, remove_first_sublist. Qed.

Lemma remove_first_sized p l :
  array_sized l → array_sized (remove_first p l).
Proof.
  unfold array_sized. pose proof (remove_first_length p l). lia.
Qed.

End Arrays.

Lemma splice_sublist {A} (start deleteCount : Z) (l : list A) :
  sublist (splice start deleteCount l) l.
Proof.
  unfold splice.
  set (a := Z.to_nat _). set (b := Z.to_nat _).
  assert (a ≤ b)%nat as Hab.
  { subst a b. destruct (Z.ltb_spec start 0); lia. }
  replace b with (a + (b - a))%nat by lia.
  rewrite <- drop_drop.
  transitivity (take a l ++ drop a l); [|by rewrite take_drop].
  apply sublist_app; [done|apply sublist_drop].
Qed.

(** ** Strict equality *)

Lemma strict_eq_true v w : strict_eq v w = true ↔ v = w ∧ v ≠ VNaN.
Proof.
  destruct (decide (v = VNaN)) as [->|Hv].
  - split; [by destruct w | by intros [_ ?]].
  - destruct (decide (w = VNaN)) as [->|Hw].
    + split; [by destruct v | intros [Heq _]; by subst v].
    + replace (strict_eq v w) with (bool_decide (v = w))
        by (by destruct v, w).
      rewrite bool_decide_eq_true. split; [by intros Heq|by intros [Heq _]].
Qed.

Lemma matches_true h c r :
  matches h c r = true ↔ fn r = h ∧ ctx r = c ∧ c ≠ VNaN.
Proof.
  unfold matches. rewrite andb_true_iff, Nat.eqb_eq, strict_eq_true.
  split.
  - intros (Hf & Hc & Hn). split_and!; congruence.
  - intros (Hf & Hc & Hn). split_and!; congruence.
Qed.

Lemma matches_self r : ctx r ≠ VNaN → matches (fn r) (ctx r) r = true.
Proof. intros. by apply matches_true. Qed.

(** ** [on] and [off] on the handler map *)

Section Registry.
Implicit Types (all : EventHandlerMap) (type : EventType).

Lemma listeners_lookup type all hs :
  all !! type = Some hs → listeners type all = hs.
Proof. unfold listeners. by intros ->. Qed.

Lemma listeners_insert type hs all :
  listeners type (<[type := hs]> all) = hs.
Proof. unfold listeners. by rewrite lookup_insert_eq. Qed.

Lemma listeners_insert_ne type type' hs all :
  type ≠ type' → listeners type' (<[type := hs]> all) = listeners type' all.
Proof. unfold listeners. intros. by rewrite lookup_insert_ne. Qed.

Lemma listeners_on type handler context once all :
  listeners type (on type handler context once all)
  = listeners type all
      ++ [{| fn := handler; ctx := context; once := once |}].
Proof.
  unfold on, listeners.
  destruct (all !! type) eqn:E; by rewrite lookup_insert_eq.
Qed.

Lemma listeners_on_ne type type' handler context once all :
  type ≠ type' →
  listeners type' (on type handler context once all) = listeners type' all.
Proof.
  intros. unfold on.
  destruct (all !! type); by apply listeners_insert_ne.
Qed.

Lemma off_handler type handler context all hs :
  all !! type = Some hs → array_sized hs →
  off type (Some handler) context all
  = <[type := remove_first (matches handler context) hs]> all.
Proof. intros E Hsize. unfold off. by rewrite E, splice_findIndex. Qed.

Lemma off_absent type handler context all :
  all !! type = None → off type handler context all = all.
Proof. intros E. unfold off. by rewrite E. Qed.

Lemma listeners_off_handler type handler context all :
  array_sized (listeners type all) →
  listeners type (off type (Some handler) context all)
  = remove_first (matches handler context) (listeners type all).
Proof.
  unfold listeners at 1 3. destruct (all !! type) as [hs|] eqn:E; simpl.
  - intros. by erewrite off_handler, listeners_insert.
  - intros _. rewrite off_absent by done. unfold listeners. by rewrite E.
Qed.

Lemma listeners_off_ne type type' handler context all :
  type ≠ type' →
  listeners type' (off type handler context all) = listeners type' all.
Proof.
  intros. unfold off.
  destruct (all !! type); [|done].
  destruct handler; by apply listeners_insert_ne.
Qed.

Lemma listeners_off_sublist type type' handler context all :
  sublist (listeners type' (off type handler context all))
          (listeners type' all).
Proof.
  destruct (decide (type = type')) as [<-|]; [|by rewrite listeners_off_ne].
  unfold off, listeners. destruct (all !! type) as [hs|] eqn:E.
  - destruct handler; rewrite lookup_insert_eq; simpl.
    + apply splice_sublist.
    + apply sublist_nil_l.
  - by rewrite E.
Qed.

End Registry.

(** ** Fuel *)

(** More fuel does not change a result that was reached. *)

Section Fuel.
Variable prog : Program.
Variables emit1 emit2 : EventType → Value → State → Result.
Hypothesis emit_extends :
  ∀ type evt s r, emit1 type evt s = Some r → emit2 type evt s = Some r.

Lemma run_actions_extends body s r :
  run_actions emit1 body s = Some r → run_actions emit2 body s = Some r.
Proof.
  revert s. induction body as [|a body IH]; intros s; simpl; [done|].
  destruct a as [type h c o|type h c|type evt|err]; try done; try apply IH.
  destruct (emit1 type evt s) as [[[|err] s1]|] eqn:E; [| |done].
  - rewrite (emit_extends _ _ _ _ E). apply IH.
  - rewrite (emit_extends _ _ _ _ E). done.
Qed.

Lemma invoke_extends type args x s r :
  invoke prog emit1 type args x s = Some r →
  invoke prog emit2 type args x s = Some r.
Proof.
  unfold invoke, call.
  destruct (run_actions emit1 _ _) as [[[|err] s1]|] eqn:E; [| |done].
  - by rewrite (run_actions_extends _ _ _ E).
  - by rewrite (run_actions_extends _ _ _ E).
Qed.

Lemma dispatch_extends type args s r :
  dispatch prog emit1 type args s = Some r →
  dispatch prog emit2 type args s = Some r.
Proof.
  unfold dispatch. destruct (all s !! type) as [hs|]; [|done].
  revert s. induction hs as [|x hs IH]; intros s; simpl; [done|].
  destruct (invoke prog emit1 type args x s) as [[[|err] s1]|] eqn:E;
    [| |done].
  - rewrite (invoke_extends _ _ _ _ _ E). apply IH.
  - by rewrite (invoke_extends _ _ _ _ _ E).
Qed.

End Fuel.

Lemma emit_more_fuel prog fuel fuel' type evt s r :
  (fuel ≤ fuel')%nat →
  emit prog fuel type evt s = Some r → emit prog fuel' type evt s = Some r.
Proof.
  intros Hle. revert type evt s r. induction Hle as [|fuel' _ IH].
  - done.
  - intros type evt s r Hr. apply IH in Hr. clear IH fuel.
    revert type evt s r Hr.
    induction fuel' as [|n IHn]; intros type evt s r; [done|].
    intros Hr. simpl in Hr. change (emit prog (S (S n)) type evt s) with
      (match dispatch prog (emit prog (S n)) type [evt] s with
       | Some (Normal, s') =>
           dispatch prog (emit prog (S n)) wildcard [key_value type; evt] s'
       | r => r
       end).
    fold (emit prog n) in Hr.
    destruct (dispatch prog (emit prog n) type [evt] s)
      as [[[|err] s1]|] eqn:E; [| |done].
    + rewrite (dispatch_extends prog _ _ IHn _ _ _ _ E).
      by apply (dispatch_extends prog _ _ IHn).
    + by rewrite (dispatch_extends prog _ _ IHn _ _ _ _ E).
Qed.

(** ** Dispatch to handlers that leave the emitter alone *)

Section Quiet.
Variable prog : Program.
Variable emit_rec : EventType → Value → State → Result.

Lemma call_quiet r args s :
  quiet prog r →
  call prog emit_rec r args s = Some (Normal, record_call (called args r) s).
Proof. intros Hq. unfold call. by rewrite Hq. Qed.

Lemma array_map_quiet type args snapshot s :
  Forall (quiet prog) snapshot →
  array_map (invoke prog emit_rec type args) snapshot s
  = Some (Normal,
          {| all := auto_remove type snapshot (all s);
             calls := calls s ++ map (called args) snapshot |}).
Proof.
  intros Hq. revert s.
  induction Hq as [|r snapshot Hr _ IH]; intros s; simpl.
  - rewrite app_nil_r. by destruct s.
  - unfold invoke. rewrite call_quiet by done.
    destruct (once r); rewrite IH; simpl;
      by rewrite <- (assoc_L (++)).
Qed.

Lemma dispatch_quiet type args s :
  Forall (quiet prog) (listeners type (all s)) →
  dispatch prog emit_rec type args s
  = Some (Normal,
          {| all := auto_remove type (listeners type (all s)) (all s);
             calls := calls s
                        ++ map (called args) (listeners type (all s)) |}).
Proof.
  unfold dispatch, listeners.
  destruct (all s !! type) as [hs|]; simpl.
  - apply array_map_quiet.
  - intros _. rewrite app_nil_r. by destruct s.
Qed.

End Quiet.

Lemma listeners_auto_remove_ne type type' snapshot all :
  type ≠ type' →
  listeners type' (auto_remove type snapshot all) = listeners type' all.
Proof.
  intros Hne. revert all. induction snapshot as [|r snapshot IH]; intros all.
  - done.
  - simpl. rewrite IH. destruct (once r); [|done].
    by apply listeners_off_ne.
Qed.

Lemma listeners_auto_remove_sublist type type' snapshot all :
  sublist (listeners type' (auto_remove type snapshot all))
          (listeners type' all).
Proof.
  revert all. induction snapshot as [|r snapshot IH]; intros all; [done|].
  simpl. etransitivity; [apply IH|].
  destruct (once r); [apply listeners_off_sublist|done].
Qed.

Lemma once_sweep_sublist snapshot live : sublist (once_sweep snapshot live) live.
Proof.
  revert live. induction snapshot as [|r snapshot IH]; intros live; [done|].
  simpl. etransitivity; [apply IH|].
  destruct (once r); [apply remove_first_sublist|done].
Qed.

Lemma listeners_auto_remove type snapshot all :
  array_sized (listeners type all) →
  listeners type (auto_remove type snapshot all)
  = once_sweep snapshot (listeners type all).
Proof.
  revert all. induction snapshot as [|r snapshot IH]; intros all Hsize; [done|].
  simpl. destruct (once r); [|by apply IH].
  rewrite IH; rewrite listeners_off_handler by done; [done|].
  by apply remove_first_sized.
Qed.

Lemma Forall_sublist {A} (P : A → Prop) (l k : list A) :
  sublist l k → Forall P k → Forall P l.
Proof.
  intros Hsub Hk. apply Forall_forall. intros x Hx.
  rewrite Forall_forall in Hk. apply Hk.
  by eapply elem_of_sublist.
Qed.

(** [emit] when the handlers of [type] and of ['*'] are quiet: two loops,
    each calling its snapshot in order and applying the [once] removals. *)
Lemma emit_quiet prog fuel type evt s :
  Forall (quiet prog) (listeners type (all s)) →
  Forall (quiet prog) (listeners wildcard (all s)) →
  let all1 := auto_remove type (listeners type (all s)) (all s) in
  emit prog (S fuel) type evt s
  = Some (Normal,
          {| all := auto_remove wildcard (listeners wildcard all1) all1;
             calls := calls s
                        ++ map (called [evt]) (listeners type (all s))
                        ++ map (called [key_value type; evt])
                             (listeners wildcard all1) |}).
Proof.
  intros Htype Hwild all1. simpl.
  rewrite dispatch_quiet by done.
  rewrite dispatch_quiet; simpl.
  - by rewrite (assoc_L (++)).
  - eapply Forall_sublist; [apply listeners_auto_remove_sublist|done].
Qed.

(** ** Registration order *)








(** ** The record of calls *)

(** Calls are only ever added to the record, and a loop that returns has
    called every item of its snapshot, in order. *)

Section Calls.
Variable prog : Program.
Variable emit_rec : EventType → Value → State → Result.
Hypothesis emit_rec_adds :
  ∀ type evt s c s',
    emit_rec type evt s = Some (c, s') → ∃ ext, calls s' = calls s ++ ext.

Lemma run_actions_adds body s c s' :
  run_actions emit_rec body s = Some (c, s') →
  ∃ ext, calls s' = calls s ++ ext.
Proof.
  revert s. induction body as [|a body IH]; intros s; simpl.
  - intros [= <- <-]. exists []. by rewrite app_nil_r.
  - destruct a as [type h ctx o|type h ctx|type evt|err].
    + intros H. by apply IH in H.
    + intros H. by apply IH in H.
    + destruct (emit_rec type evt s) as [[[|err] s1]|] eqn:E; [| |done].
      * intros H. apply IH in H as [ext2 H2].
        apply emit_rec_adds in E as [ext1 H1].
        exists (ext1 ++ ext2). by rewrite H2, H1, (assoc_L (++)).
      * intros [= <- <-]. by apply emit_rec_adds in E.
    + intros [= <- <-]. exists []. by rewrite app_nil_r.
Qed.

Lemma invoke_adds type args r s c s' :
  invoke prog emit_rec type args r s = Some (c, s') →
  ∃ ext, calls s' = calls s ++ called args r :: ext.
Proof.
  unfold invoke, call.
  destruct (run_actions _ _ _) as [[[|err] s1]|] eqn:E; [| |done].
  - intros [= <- <-]. apply run_actions_adds in E as [ext H]. simpl in H.
    exists ext. rewrite <- (assoc_L (++)) in H. by destruct (once r).
  - intros [= <- <-]. apply run_actions_adds in E as [ext H]. simpl in H.
    exists ext. by rewrite <- (assoc_L (++)) in H.
Qed.

Lemma array_map_adds type args snapshot s c s' :
  array_map (invoke prog emit_rec type args) snapshot s = Some (c, s') →
  ∃ ext, calls s' = calls s ++ ext
         ∧ (c = Normal → sublist (map (called args) snapshot) ext).
Proof.
  revert s. induction snapshot as [|r snapshot IH]; intros s; simpl.
  - intros [= <- <-]. exists []. by rewrite app_nil_r.
  - destruct (invoke prog emit_rec type args r s) as [[[|err] s1]|] eqn:E;
      [| |done].
    + intros H. apply IH in H as (ext2 & H2 & Hsub).
      apply invoke_adds in E as [ext1 H1].
      exists (called args r :: ext1 ++ ext2). split.
      * by rewrite H2, H1, <- (assoc_L (++)).
      * intros Hc. constructor. by apply sublist_inserts_l, Hsub.
    + intros [= <- <-]. apply invoke_adds in E as [ext1 H1].
      by exists (called args r :: ext1).
Qed.

Lemma dispatch_adds type args s c s' :
  dispatch prog emit_rec type args s = Some (c, s') →
  ∃ ext, calls s' = calls s ++ ext
         ∧ (c = Normal →
            sublist (map (called args) (listeners type (all s))) ext).
Proof.
  unfold dispatch, listeners. destruct (all s !! type) as [hs|]; simpl.
  - apply array_map_adds.
  - intros [= <- <-]. exists []. by rewrite app_nil_r.
Qed.

End Calls.

Lemma emit_adds prog fuel type evt s c s' :
  emit prog fuel type evt s = Some (c, s') →
  ∃ ext, calls s' = calls s ++ ext.
Proof.
  revert type evt s c s'. induction fuel as [|fuel IH]; [done|].
  intros type evt s c s'. simpl. fold (emit prog fuel).
  destruct (dispatch prog (emit prog fuel) type [evt] s)
    as [[[|err] s1]|] eqn:E; [| |done].
  - intros H.
    apply (dispatch_adds prog _ IH) in E as (ext1 & H1 & _).
    apply (dispatch_adds prog _ IH) in H as (ext2 & H2 & _).
    exists (ext1 ++ ext2). by rewrite H2, H1, (assoc_L (++)).
  - intros [= <- <-].
    apply (dispatch_adds prog _ IH) in E as (ext1 & H1 & _). by exists ext1.
Qed.

(** ** The wildcard pass *)

(** C3 as stated fails: when a handler of K throws, [emit] ends before
    it reads the wildcard list, and the handler registered under ['*'] is
    not called. *)
Lemma wildcard_handler_not_called :
  observed
    (emit Scenario.b_throws 1 Scenario.foo (VNum 42)
       (Scenario.start
          (on wildcard 3%nat VUndefined false
             (on Scenario.foo 2%nat VUndefined false ∅))))
  = Some (Throw (VStr "boom"), [called [VNum 42] Scenario.B]).
Proof. reflexivity. Qed.

(** C3, as the code has it: whenever [emit(K, payload)] returns normally,
    the handlers of K have all returned first, and every handler that is in
    the wildcard list at that point is then called with the two arguments
    [(K, payload)], in list order.  For an ordinary key K whose handlers,
    like the wildcard handlers, return without calling the emitter, [emit]
    does return, and its calls are those of K's handlers with [payload]
    followed by those of every handler registered under ['*'] with
    [(K, payload)]. *)
Theorem wildcard_handlers_run_last prog fuel (K : EventType)
    (payload : Value) (s : State) :
  (∀ s',
     emit prog (S fuel) K payload s = Some (Normal, s') →
     ∃ s1 ext,
       dispatch prog (emit prog fuel) K [payload] s = Some (Normal, s1)
       ∧ calls s' = calls s1 ++ ext
       ∧ sublist (map (called [key_value K; payload])
                    (listeners wildcard (all s1))) ext)
  ∧ (K ≠ wildcard →
     Forall (quiet prog) (listeners K (all s)) →
     Forall (quiet prog) (listeners wildcard (all s)) →
     ∃ s',
       emit prog (S fuel) K payload s = Some (Normal, s')
       ∧ calls s'
         = calls s
             ++ map (called [payload]) (listeners K (all s))
             ++ map (called [key_value K; payload])
                  (listeners wildcard (all s))).
Proof.
  split.
  - intros s'. simpl. fold (emit prog fuel).
    destruct (dispatch prog (emit prog fuel) K [payload] s)
      as [[[|err] s1]|] eqn:E; [|done|done].
    intros H. exists s1.
    apply (dispatch_adds prog _ (emit_adds prog fuel)) in H
      as (ext & Hext & Hsub).
    exists ext. split_and!; [done|done|by apply Hsub].
  - intros HK Htype Hwild. eexists. split; [by apply emit_quiet|].
    simpl. by rewrite listeners_auto_remove_ne.
Qed.

Lemma wildcard_handlers_run_last_witness :
  let s :=
    Scenario.start
      (on wildcard 3%nat VUndefined false
         (on Scenario.foo 2%nat VUndefined false
            (on Scenario.foo 1%nat VUndefined false ∅))) in
  ∃ s',
    emit Scenario.idle 1 Scenario.foo (VNum 42) s = Some (Normal, s')
    ∧ calls s'
      = calls s
          ++ map (called [VNum 42]) (listeners Scenario.foo (all s))
          ++ map (called [key_value Scenario.foo; VNum 42])
               (listeners wildcard (all s))
    ∧ ∃ s1 ext,
        dispatch Scenario.idle (emit Scenario.idle 0) Scenario.foo
          [VNum 42] s
        = Some (Normal, s1)
        ∧ calls s' = calls s1 ++ ext
        ∧ sublist (map (called [key_value Scenario.foo; VNum 42])
                     (listeners wildcard (all s1))) ext.
Proof.
  intros s.
  destruct (wildcard_handlers_run_last Scenario.idle 0 Scenario.foo
              (VNum 42) s) as [Hgeneral Hquiet].
  destruct Hquiet as (s' & Hemit & Hcalls).
  - discriminate.
  - by repeat constructor.
  - by repeat constructor.
  - exists s'. split_and!; [done|done|by apply Hgeneral].
Defined.




(** ** [off] *)

(** C6 as stated fails: [off('foo')] on a map without the key ['foo']
    leaves the key absent; it does not create an empty list. *)
Lemma off_all_absent_key_stays_absent :
  off Scenario.foo None VUndefined ∅ !! Scenario.foo = None.
Proof. reflexivity. Qed.

(** C6, as the code has it: [off(K)] without a callback replaces the list
    of a key that is present by an empty list, whatever the contexts and
    once-flags of its items, and leaves the map as it is when the key is
    absent; no other key changes.  Either way K has no handlers afterwards:
    the loop of a later [emit(K, x)] over K's handlers makes no call and
    changes nothing, so that [emit] amounts to its wildcard pass. *)
Theorem off_all_clears prog fuel (K : EventType) (context x : Value)
    (all0 : EventHandlerMap) (calls0 : list Call) :
  let all1 := off K None context all0 in
  let s1 := {| all := all1; calls := calls0 |} in
  all1 !! K = (λ _, []) <$> all0 !! K
  ∧ (all0 !! K = None → all1 = all0)
  ∧ (∀ K', K' ≠ K → all1 !! K' = all0 !! K')
  ∧ listeners K all1 = []
  ∧ dispatch prog (emit prog fuel) K [x] s1 = Some (Normal, s1)
  ∧ emit prog (S fuel) K x s1
    = dispatch prog (emit prog fuel) wildcard [key_value K; x] s1.
Proof.
  intros all1 s1.
  assert (all1 !! K = (λ _, []) <$> all0 !! K) as HK.
  { subst all1. unfold off. destruct (all0 !! K) eqn:E; simpl.
    - by rewrite lookup_insert_eq.
    - done. }
  assert (dispatch prog (emit prog fuel) K [x] s1 = Some (Normal, s1)) as Hd.
  { unfold dispatch. simpl. rewrite HK. by destruct (all0 !! K). }
  split_and!.
  - done.
  - intros Habsent. by apply off_absent.
  - intros K' HK'. subst all1. unfold off.
    destruct (all0 !! K); [|done]. by rewrite lookup_insert_ne.
  - unfold listeners. rewrite HK. by destruct (all0 !! K).
  - done.
  - simpl. fold (emit prog fuel). by rewrite Hd.
Qed.



(** ** Dispatch to handlers that call [on] and [off] *)

Section Registering.
Variable prog : Program.
Variable emit_rec : EventType → Value → State → Result.
Hypothesis prog_registers :
  ∀ f this args, Forall registers_only (prog f this args).

Lemma run_actions_registers body s :
  Forall registers_only body →
  ∃ all', run_actions emit_rec body s
          = Some (Normal, {| all := all'; calls := calls s |}).
Proof.
  intros Hbody. revert s.
  induction Hbody as [|a body Ha _ IH]; intros s; simpl.
  - exists (all s). by destruct s.
  - destruct a as [type h c o|type h c| |]; simpl in Ha; try done.
    + destruct (IH (update_all (on type h c o) s)) as [all' ->].
      by exists all'.
    + destruct (IH (update_all (off type h c) s)) as [all' ->].
      by exists all'.
Qed.

Lemma invoke_registers type args r s :
  ∃ all', invoke prog emit_rec type args r s
          = Some (Normal,
                  {| all := all'; calls := calls s ++ [called args r] |}).
Proof.
  unfold invoke, call.
  destruct (run_actions_registers
              (prog (fn r) (ctx r) args)
              (record_call {| item := r; args := args |} s))
    as [all' ->]; [done|].
  destruct (once r); by eexists.
Qed.

Lemma array_map_registers type args snapshot s :
  ∃ all', array_map (invoke prog emit_rec type args) snapshot s
          = Some (Normal,
                  {| all := all';
                     calls := calls s ++ map (called args) snapshot |}).
Proof.
  revert s. induction snapshot as [|r snapshot IH]; intros s; simpl.
  - exists (all s). rewrite app_nil_r. by destruct s.
  - destruct (invoke_registers type args r s) as [all1 ->].
    destruct (IH {| all := all1; calls := calls s ++ [called args r] |})
      as [all' ->].
    exists all'. simpl. by rewrite <- (assoc_L (++)).
Qed.

Lemma dispatch_registers type args s :
  ∃ all', dispatch prog emit_rec type args s
          = Some (Normal,
                  {| all := all';
                     calls := calls s
                                ++ map (called args)
                                     (listeners type (all s)) |}).
Proof.
  unfold dispatch, listeners. destruct (all s !! type) as [hs|]; simpl.
  - apply array_map_registers.
  - exists (all s). rewrite app_nil_r. by destruct s.
Qed.

End Registering.

(** C2 as stated fails: [A] deregisters [B], which comes after it in the
    list of ['foo']; [emit('foo', 42)] still calls [B], and [B] is gone
    from the list afterwards. *)
Lemma removed_handler_is_still_called :
  let s0 := Scenario.start {[ Scenario.foo := [Scenario.A; Scenario.B] ]} in
  ∃ s',
    emit Scenario.a_removes_b 1 Scenario.foo (VNum 42) s0 = Some (Normal, s')
    ∧ calls s' = [called [VNum 42] Scenario.A; called [VNum 42] Scenario.B]
    ∧ all s' !! Scenario.foo = Some [Scenario.A].
Proof. eexists. split_and!; reflexivity. Qed.

(** C2, as the code has it: the loop of [emit(K, payload)] runs over the
    copy of K's list made before the first call, so every item of that
    copy is called with [payload], in order, whatever [on] and [off] calls
    the handlers make on the way; an item removed by an earlier handler is
    called all the same.  The wildcard pass then works on the wildcard list
    as the first loop left it. *)
Theorem snapshot_is_dispatched prog fuel (K : EventType) (payload : Value)
    (s : State) :
  (∀ f this args, Forall registers_only (prog f this args)) →
  ∃ s1 s',
    dispatch prog (emit prog fuel) K [payload] s = Some (Normal, s1)
    ∧ calls s1 = calls s ++ map (called [payload]) (listeners K (all s))
    ∧ emit prog (S fuel) K payload s = Some (Normal, s')
    ∧ calls s'
      = calls s1
          ++ map (called [key_value K; payload])
               (listeners wildcard (all s1)).
Proof.
  intros Hprog.
  destruct (dispatch_registers prog (emit prog fuel) Hprog K [payload] s)
    as [all1 H1].
  destruct (dispatch_registers prog (emit prog fuel) Hprog wildcard
              [key_value K; payload]
              {| all := all1;
                 calls := calls s
                            ++ map (called [payload]) (listeners K (all s)) |})
    as [all2 H2].
  do 2 eexists. split_and!.
  - exact H1.
  - done.
  - simpl. fold (emit prog fuel). rewrite H1. exact H2.
  - done.
Qed.

Lemma snapshot_is_dispatched_witness :
  let s0 := Scenario.start {[ Scenario.foo := [Scenario.A; Scenario.B] ]} in
  ∃ s1 s',
    dispatch Scenario.a_removes_b (emit Scenario.a_removes_b 0) Scenario.foo
      [VNum 42] s0
    = Some (Normal, s1)
    ∧ calls s1
      = calls s0
          ++ map (called [VNum 42]) (listeners Scenario.foo (all s0))
    ∧ emit Scenario.a_removes_b 1 Scenario.foo (VNum 42) s0
      = Some (Normal, s')
    ∧ calls s'
      = calls s1
          ++ map (called [key_value Scenario.foo; VNum 42])
               (listeners wildcard (all s1)).
Proof.
  intros s0.
  apply (snapshot_is_dispatched Scenario.a_removes_b 0 Scenario.foo
           (VNum 42) s0).
  intros f this args. unfold Scenario.a_removes_b.
  destruct f as [|[|f]]; by repeat constructor.
Defined.

(** ** Handlers that throw *)

Lemma array_map_app {A} (callback : A → State → Result) (l k : list A) s :
  array_map callback (l ++ k) s
  = match array_map callback l s with
    | Some (Normal, s') => array_map callback k s'
    | r => r
    end.
Proof.
  revert s. induction l as [|x l IH]; intros s; simpl.
  - done.
  - destruct (callback x s) as [[[] ?]|]; by rewrite ?IH.
Qed.

(** The loop stops at the first item whose call throws: the items after it
    are not called, and the thrower is not removed. *)
Lemma array_map_throw prog emit_rec type args pre r post s s1 err s2 :
  array_map (invoke prog emit_rec type args) pre s = Some (Normal, s1) →
  call prog emit_rec r args s1 = Some (Throw err, s2) →
  array_map (invoke prog emit_rec type args) (pre ++ r :: post) s
  = Some (Throw err, s2).
Proof.
  intros Hpre Hr. rewrite array_map_app, Hpre. simpl.
  unfold invoke. by rewrite Hr.
Qed.

(** C8: when the call of a handler throws [err] during [emit], the arrow
    function ends there, without the [off] of a [once] item; the loop
    ends, and [emit] ends with the same [err] in the very state the
    handler left: no item after it in the snapshot is called, and when it
    was one of the handlers of the emitted key the wildcard pass does not
    take place.  In particular a [once] item whose call throws is in the
    handler map after [emit] if it was when its handler threw: when the
    handler throws before anything else, the map is the one it was called
    on.  A handler of the wildcard pass that throws ends [emit] in the
    same way. *)
Theorem throwing_handler_aborts_emit prog fuel (K : EventType)
    (payload : Value) (s s1 s2 : State) (pre post : list HandlerListItem)
    (r : HandlerListItem) (err : Value) :
  all s !! K = Some (pre ++ r :: post) →
  array_map (invoke prog (emit prog fuel) K [payload]) pre s
  = Some (Normal, s1) →
  call prog (emit prog fuel) r [payload] s1 = Some (Throw err, s2) →
  invoke prog (emit prog fuel) K [payload] r s1 = Some (Throw err, s2)
  ∧ emit prog (S fuel) K payload s = Some (Throw err, s2)
  ∧ (∀ body, prog (fn r) (ctx r) [payload] = ActThrow err :: body →
             s2 = record_call (called [payload] r) s1)
  ∧ (∀ t t' t1 t2 wpre w wpost err',
       dispatch prog (emit prog fuel) K [payload] t = Some (Normal, t') →
       all t' !! wildcard = Some (wpre ++ w :: wpost) →
       array_map (invoke prog (emit prog fuel) wildcard
                    [key_value K; payload]) wpre t'
       = Some (Normal, t1) →
       call prog (emit prog fuel) w [key_value K; payload] t1
       = Some (Throw err', t2) →
       emit prog (S fuel) K payload t = Some (Throw err', t2)).
Proof.
  intros HK Hpre Hr. split_and!.
  - unfold invoke. by rewrite Hr.
  - simpl. fold (emit prog fuel). unfold dispatch. rewrite HK.
    by erewrite array_map_throw.
  - intros body Hbody. unfold call in Hr. rewrite Hbody in Hr.
    simpl in Hr. by injection Hr as <-.
  - intros t t' t1 t2 wpre w wpost err' Htype Hw Hwpre Hcall.
    simpl. fold (emit prog fuel). rewrite Htype.
    unfold dispatch. rewrite Hw. by erewrite array_map_throw.
Qed.

Lemma throwing_handler_aborts_emit_witness :
  let s0 :=
    Scenario.start
      {[ Scenario.foo := [Scenario.A; Scenario.B_once; Scenario.C];
         wildcard := [Scenario.C] ]} in
  let s1 := record_call (called [VNum 1] Scenario.A) s0 in
  let s2 := record_call (called [VNum 1] Scenario.B_once) s1 in
  emit Scenario.b_throws 1 Scenario.foo (VNum 1) s0
  = Some (Throw (VStr "boom"), s2)
  ∧ calls s2
    = [called [VNum 1] Scenario.A; called [VNum 1] Scenario.B_once]
  ∧ all s2 !! Scenario.foo
    = Some [Scenario.A; Scenario.B_once; Scenario.C].
Proof.
  intros s0 s1 s2. split; [|by split].
  apply (throwing_handler_aborts_emit Scenario.b_throws 0 Scenario.foo
           (VNum 1) s0 s1 s2 [Scenario.A] [Scenario.C] Scenario.B_once
           (VStr "boom")); reflexivity.
Defined.

(** ** One-time handlers *)



Lemma matches_nan h x : matches h VNaN x = false.
Proof.
  destruct (matches h VNaN x) eqn:E; [|done].
  by apply matches_true in E as (_ & _ & Hn).
Qed.

Lemma once_sweep_app xs ys live :
  once_sweep (xs ++ ys) live = once_sweep ys (once_sweep xs live).
Proof. apply foldl_app. Qed.

(** The loop over [xs], started when the live list is [L ++ xs ++ tail],
    touches neither [tail] nor, when [L] has no item matching [(h, c)] and
    the matching items of [xs] are all [once], leaves such an item. *)
Lemma once_sweep_prefix h c xs :
  Forall (λ x, matches h c x = true → once x = true) xs →
  ∀ L, Forall (λ x, matches h c x = false) L →
  ∃ L', Forall (λ x, matches h c x = false) L'
        ∧ ∀ tail, once_sweep xs (L ++ xs ++ tail) = L' ++ tail.
Proof.
  induction 1 as [|x xs Hx _ IH]; intros L HL.
  - exists L. split; [done|]. intros tail. done.
  - assert (∃ L1, Forall (λ y, matches h c y = false) L1
                  ∧ ∀ tail,
                      (if once x
                       then remove_first (matches (fn x) (ctx x))
                              (L ++ x :: tail)
                       else L ++ x :: tail)
                      = L1 ++ tail) as (L1 & HL1 & Hstep).
    { destruct (once x) eqn:Honce.
      - destruct (decide (ctx x = VNaN)) as [Hnan|Hnan].
        + exists (L ++ [x]). split.
          * apply Forall_app. split; [done|]. constructor; [|done].
            unfold matches. rewrite Hnan. simpl. apply andb_false_r.
          * intros tail. rewrite Hnan, remove_first_none.
            -- by rewrite <- (assoc_L (++)).
            -- apply Forall_forall. intros y _. apply matches_nan.
        + destruct (matches h c x) eqn:Hm.
          * exists L. split; [done|]. intros tail.
            apply remove_first_first; [|by apply matches_self].
            eapply Forall_impl; [exact HL|]. intros y Hy. simpl in Hy.
            apply matches_true in Hm as (Hf & Hc & Hn).
            by rewrite Hf, Hc.
          * exists (remove_first (matches (fn x) (ctx x)) (L ++ [x])).
            split.
            -- eapply Forall_sublist; [apply remove_first_sublist|].
               apply Forall_app. split; [done|]. by constructor.
            -- intros tail. rewrite (cons_middle x L tail), (assoc_L (++)).
               apply remove_first_app_l, Exists_app. right.
               constructor. by apply matches_self.
      - exists (L ++ [x]). split.
        + apply Forall_app. split; [done|]. constructor; [|done].
          destruct (matches h c x); [|done]. by specialize (Hx eq_refl).
        + intros tail. by rewrite <- (assoc_L (++)). }
    destruct (IH L1 HL1) as (L' & HL' & Hsweep).
    exists L'. split; [done|]. intros tail. simpl.
    rewrite Hstep. apply Hsweep.
Qed.

(** C4: a handler registered with [once] is to be called once and then
    unregistered (the source documents [once] so: "the handler is
    automatically unregistered once invoked").  The code falls short of
    it: the list of ['foo'] holds [A] twice, the second time as a [once]
    item; the first [emit] calls both and then deletes the first, plain
    item; the [once] item stays registered and the second [emit] calls it
    again. *)
Lemma once_handler_fires_twice :
  let s0 :=
    Scenario.start {[ Scenario.foo := [Scenario.A; Scenario.A_once] ]} in
  ∃ s1,
    emit Scenario.idle 1 Scenario.foo (VNum 1) s0 = Some (Normal, s1)
    ∧ all s1 !! Scenario.foo = Some [Scenario.A_once]
    ∧ observed (emit Scenario.idle 1 Scenario.foo (VNum 2) s1)
      = Some (Normal,
              [called [VNum 1] Scenario.A;
               called [VNum 1] Scenario.A_once;
               called [VNum 2] Scenario.A_once]).
Proof. eexists. split_and!; reflexivity. Qed.

(** Where the removal does find the item that fired: take a [once] item
    [r] in the list of an ordinary key K, with a context strictly equal to
    itself, such that every item before it with the same callback and
    context is a [once] item too, and handlers that leave the emitter
    alone.  The first [emit(K, e1)] calls [r] with [e1] in its turn and
    deletes it right after that call, through [off]; the list it leaves is
    the one the other items would have left without [r], and the second
    [emit(K, e2)] calls the items of that list only. *)
Theorem once_handler_fires_once prog fuel (K : EventType) (e1 e2 : Value)
    (s : State) (pre post : list HandlerListItem) (r : HandlerListItem) :
  K ≠ wildcard →
  all s !! K = Some (pre ++ r :: post) →
  array_sized (pre ++ r :: post) →
  once r = true →
  ctx r ≠ VNaN →
  Forall (λ x, matches (fn r) (ctx r) x = true → once x = true) pre →
  Forall (quiet prog) (pre ++ r :: post) →
  Forall (quiet prog) (listeners wildcard (all s)) →
  let rest := once_sweep (pre ++ post) (pre ++ post) in
  ∃ s_r s1 s2,
    array_map (invoke prog (emit prog fuel) K [e1]) (pre ++ [r]) s
    = Some (Normal, s_r)
    ∧ calls s_r = calls s ++ map (called [e1]) pre ++ [called [e1] r]
    ∧ listeners K (all s_r) = once_sweep pre pre ++ post
    ∧ emit prog (S fuel) K e1 s = Some (Normal, s1)
    ∧ calls s1
      = calls s
          ++ map (called [e1]) (pre ++ r :: post)
          ++ map (called [key_value K; e1]) (listeners wildcard (all s))
    ∧ listeners K (all s1) = rest
    ∧ sublist rest (pre ++ post)
    ∧ emit prog (S fuel) K e2 s1 = Some (Normal, s2)
    ∧ calls s2
      = calls s1
          ++ map (called [e2]) rest
          ++ map (called [key_value K; e2]) (listeners wildcard (all s1)).
Proof.
  intros HK Hlist Hsize Honce Hnan Hpre Hquiet Hwild rest.
  pose proof (listeners_lookup _ _ _ Hlist) as Hhs.
  destruct (once_sweep_prefix (fn r) (ctx r) pre Hpre [] (Forall_nil_2 _))
    as (L' & HL' & Hsweep).
  simpl in Hsweep.
  assert (L' = once_sweep pre pre) as HL'eq.
  { specialize (Hsweep []). by rewrite !app_nil_r in Hsweep. }
  assert (once_sweep (pre ++ [r]) (pre ++ r :: post) = L' ++ post) as Hupto.
  { rewrite once_sweep_app, Hsweep. simpl. rewrite Honce.
    apply remove_first_first; [done|by apply matches_self]. }
  assert (once_sweep (pre ++ r :: post) (pre ++ r :: post) = rest) as Hrest.
  { subst rest. rewrite (cons_middle r pre post), (assoc_L (++)).
    rewrite once_sweep_app, <- (assoc_L (++)), <- cons_middle, Hupto.
    by rewrite once_sweep_app, Hsweep. }
  assert (Forall (quiet prog) (pre ++ [r])) as Hquiet_r.
  { eapply Forall_sublist; [|exact Hquiet].
    rewrite (cons_middle r pre post), (assoc_L (++)).
    by apply sublist_inserts_r. }
  assert (sublist rest (pre ++ post)) as Hsub
    by apply once_sweep_sublist.
  pose proof (emit_quiet prog fuel K e1 s) as H1.
  rewrite Hhs in H1. specialize (H1 Hquiet Hwild). simpl in H1.
  rewrite listeners_auto_remove_ne in H1 by done.
  set (s1 := {| all := auto_remove wildcard (listeners wildcard (all s))
                         (auto_remove K (pre ++ r :: post) (all s));
                calls := calls s
                           ++ map (called [e1]) (pre ++ r :: post)
                           ++ map (called [key_value K; e1])
                                (listeners wildcard (all s)) |}) in *.
  assert (listeners K (all s1) = rest) as HK1.
  { simpl. rewrite listeners_auto_remove_ne by done.
    rewrite listeners_auto_remove; by rewrite Hhs. }
  pose proof (emit_quiet prog fuel K e2 s1) as H2.
  rewrite HK1 in H2. simpl in H2.
  rewrite (listeners_auto_remove_ne K wildcard) in H2 by done.
  eexists _, s1, _. split_and!.
  - by apply array_map_quiet.
  - simpl. by rewrite map_app.
  - simpl. rewrite listeners_auto_remove by (by rewrite Hhs).
    by rewrite Hhs, Hupto, HL'eq.
  - exact H1.
  - done.
  - exact HK1.
  - exact Hsub.
  - apply H2.
    + eapply Forall_sublist; [|exact Hquiet].
      etransitivity; [exact Hsub|].
      apply sublist_app; [done|]. by apply sublist_cons.
    + eapply Forall_sublist; [|exact Hwild].
      etransitivity; [apply listeners_auto_remove_sublist|].
      by rewrite listeners_auto_remove_ne.
  - done.
Qed.

Lemma once_handler_fires_once_witness :
  let s :=
    Scenario.start
      {[ Scenario.foo := [Scenario.B; Scenario.A_once; Scenario.A];
         wildcard := [Scenario.C] ]} in
  ∃ s_r s1 s2,
    array_map (invoke Scenario.idle (emit Scenario.idle 0) Scenario.foo
                 [VNum 1]) [Scenario.B; Scenario.A_once] s
    = Some (Normal, s_r)
    ∧ calls s_r = [called [VNum 1] Scenario.B; called [VNum 1] Scenario.A_once]
    ∧ listeners Scenario.foo (all s_r) = [Scenario.B; Scenario.A]
    ∧ emit Scenario.idle 1 Scenario.foo (VNum 1) s = Some (Normal, s1)
    ∧ calls s1
      = [called [VNum 1] Scenario.B;
         called [VNum 1] Scenario.A_once;
         called [VNum 1] Scenario.A;
         called [VStr "foo"; VNum 1] Scenario.C]
    ∧ listeners Scenario.foo (all s1) = [Scenario.B; Scenario.A]
    ∧ sublist [Scenario.B; Scenario.A] [Scenario.B; Scenario.A]
    ∧ emit Scenario.idle 1 Scenario.foo (VNum 2) s1 = Some (Normal, s2)
    ∧ calls s2
      = calls s1
          ++ [called [VNum 2] Scenario.B; called [VNum 2] Scenario.A]
          ++ map (called [VStr "foo"; VNum 2])
               (listeners wildcard (all s1)).
Proof.
  intros s.
  apply (once_handler_fires_once Scenario.idle 0 Scenario.foo (VNum 1)
           (VNum 2) s [Scenario.B] [Scenario.A] Scenario.A_once).
  - discriminate.
  - reflexivity.
  - by vm_compute.
  - reflexivity.
  - discriminate.
  - by repeat constructor.
  - by repeat constructor.
  - by repeat constructor.
Defined.

(** ** The exposed map *)

Lemma list_find_first {A} (P : A → Prop) `{!∀ x, Decision (P x)}
    (l : list A) i x :
  list_find P l = Some (i, x) →
  ∃ pre post, l = pre ++ x :: post ∧ length pre = i
              ∧ Forall (λ y, ¬ P y) pre ∧ P x.
Proof.
  intros (Hi & Hx & Hbefore)%list_find_Some.
  exists (take i l), (drop (S i) l). split_and!.
  - by rewrite take_drop_middle.
  - apply length_take_le. apply lookup_lt_Some in Hi. lia.
  - apply Forall_lookup. intros j y Hj.
    pose proof (lookup_lt_Some _ _ _ Hj) as Hlt.
    rewrite length_take in Hlt.
    rewrite lookup_take_lt in Hj by lia.
    apply (Hbefore j y Hj). lia.
  - done.
Qed.

(** A method call and the direct manipulation that stands for it leave
    the same map. *)
Lemma method_by_hand (c : MethodCall) (all : EventHandlerMap) :
  arrays_sized all →
  method c all = foldl mutate all (by_hand c all).
Proof.
  intros Hsize. destruct c as [type h c o|type [h|] c]; simpl.
  - unfold on. by destruct (all !! type) eqn:E; simpl; rewrite ?E.
  - specialize (Hsize type). unfold listeners in *.
    destruct (all !! type) as [hs|] eqn:E; simpl in *.
    + erewrite off_handler by done.
      destruct (list_find _ hs) as [[i x]|] eqn:Hfind; simpl.
      * apply list_find_first in Hfind
          as (pre & post & -> & <- & Hpre & Hx).
        rewrite E, splice_at. f_equal.
        apply remove_first_first; [|done].
        eapply Forall_impl; [exact Hpre|]. simpl. intros y Hy.
        by destruct (matches h c y).
      * apply list_find_None in Hfind.
        rewrite remove_first_none; [by apply insert_id|].
        eapply Forall_impl; [exact Hfind|]. simpl. intros y Hy.
        by destruct (matches h c y).
    + by rewrite off_absent.
  - unfold off. by destruct (all !! type) eqn:E.
Qed.

Lemma method_length (c : MethodCall) (all : EventHandlerMap) type :
  (length (listeners type (method c all))
   ≤ S (length (listeners type all)))%nat.
Proof.
  destruct c as [type' h c o|type' h c]; simpl.
  - destruct (decide (type' = type)) as [->|].
    + rewrite listeners_on, length_app. simpl. lia.
    + rewrite listeners_on_ne by done. lia.
  - pose proof (sublist_length _ _
                  (listeners_off_sublist type' type h c all)). lia.
Qed.

Section Exposed.
Import Factory.

Lemma contents_insert (h : Heap) l m : contents (<[l := m]> h) l = m.
Proof. unfold contents. by rewrite lookup_insert_eq. Qed.

Lemma mutate_at_foldl l (h : Heap) ms :
  is_Some (h !! l) →
  foldl (mutate_at l) h ms = <[l := foldl mutate (contents h l) ms]> h.
Proof.
  revert h. induction ms as [|m ms IH]; intros h [a Ha]; simpl.
  - symmetry. apply insert_id. unfold contents. by rewrite Ha.
  - rewrite IH.
    + unfold mutate_at. by rewrite contents_insert, insert_insert_eq.
    + unfold mutate_at. by rewrite lookup_insert_eq.
Qed.

Lemma invoke_method_by_hand e (h : Heap) c :
  is_Some (h !! all e) →
  arrays_sized (contents h (all e)) →
  invoke_method e c h = by_hand_at (all e) h c.
Proof.
  intros Hl Hsize. unfold invoke_method, by_hand_at.
  by rewrite mutate_at_foldl, <- method_by_hand.
Qed.

Lemma invoke_methods_by_hand e (cs : list MethodCall) (h : Heap) :
  is_Some (h !! all e) →
  (∀ type,
     Z.of_nat (length (listeners type (contents h (all e))))
     + Z.of_nat (length cs) < 2 ^ 32) →
  foldl (λ h c, invoke_method e c h) h cs = foldl (by_hand_at (all e)) h cs.
Proof.
  revert h. induction cs as [|c cs IH]; intros h Hl Hsize; simpl; [done|].
  simpl in Hsize.
  rewrite <- invoke_method_by_hand; [apply IH|done|].
  - unfold invoke_method. by rewrite lookup_insert_eq.
  - intros type. unfold invoke_method. rewrite contents_insert.
    pose proof (method_length c (contents h (all e)) type).
    specialize (Hsize type). lia.
  - intros type. specialize (Hsize type). unfold array_sized. lia.
Qed.

End Exposed.

(** C9: [mitt(all)] keeps the map it is given: the emitter's [all] is that
    very reference and no map is made or copied ([mitt()] makes a new,
    empty one).  Whatever sequence of [on] and [off] calls goes through an
    emitter, the maps of the program are then exactly as after the
    corresponding direct manipulations ([set], [push], [splice]) of the map
    behind [all]; so registrations made either way, or through another
    emitter built on the same map, are the same registrations, and they
    are what [emit] reads. *)
Theorem all_is_the_store (l : Factory.Ref) (h : Factory.Heap)
    (cs : list MethodCall) :
  is_Some (h !! l) →
  (∀ type,
     Z.of_nat (length (listeners type (Factory.contents h l)))
     + Z.of_nat (length cs) < 2 ^ 32) →
  Factory.mitt (Some l) h = ({| Factory.all := l |}, h)
  ∧ (∀ e h', Factory.mitt None h = (e, h') →
             h !! Factory.all e = None ∧ h' = <[Factory.all e := ∅]> h)
  ∧ (∀ e, Factory.all e = l →
          foldl (λ h c, Factory.invoke_method e c h) h cs
          = foldl (Factory.by_hand_at l) h cs)
  ∧ (∀ e prog fuel type evt calls0,
       Factory.all e = l →
       Factory.invoke_emit prog fuel e type evt h calls0
       = match emit prog fuel type evt
                 (with_calls (Factory.contents h l) calls0) with
         | Some (c, s) => Some (c, <[l := all s]> h, calls s)
         | None => None
         end).
Proof.
  intros Hl Hsize. split_and!.
  - done.
  - unfold Factory.mitt, Factory.new_Map. intros e h' [= <- <-]. simpl.
    split; [|done]. apply not_elem_of_dom. apply is_fresh.
  - intros e <-. by apply invoke_methods_by_hand.
  - intros e prog fuel type evt calls0 <-. unfold Factory.invoke_emit.
    by destruct (emit _ _ _ _ _) as [[c [all' calls']]|].
Qed.

Lemma all_is_the_store_witness :
  let h : Factory.Heap := {[ 0%nat := ∅ ]} in
  let e := {| Factory.all := 0%nat |} in
  let cs :=
    [CallOn Scenario.foo 1%nat VUndefined false;
     CallOn Scenario.foo 2%nat VUndefined false;
     CallOff Scenario.foo (Some 1%nat) VUndefined;
     CallOff (TStr "bar") None VUndefined] in
  Factory.mitt (Some 0%nat) h = (e, h)
  ∧ foldl (λ h c, Factory.invoke_method e c h) h cs
    = foldl (Factory.by_hand_at 0%nat) h cs
  ∧ Factory.contents (foldl (λ h c, Factory.invoke_method e c h) h cs) 0%nat
    = {[ Scenario.foo := [Scenario.B] ]}.
Proof.
  intros h e cs.
  destruct (all_is_the_store 0%nat h cs) as (Hmitt & _ & Hsame & _).
  - by eexists.
  - intros type. unfold Factory.contents, listeners. subst h.
    rewrite lookup_singleton_eq. simpl. by rewrite lookup_empty.
  - split_and!; [exact Hmitt|by apply Hsame|by vm_compute].
Defined.

(** * Further properties of [on], [off], [emit] and [mitt] *)

(** ** What [off] can and cannot do *)

Lemma off_lookup_ne type type' handler context (all : EventHandlerMap) :
  type ≠ type' → off type handler context all !! type' = all !! type'.
Proof.
  intros Hne. unfold off. destruct (all !! type); [|done].
  destruct handler; by rewrite lookup_insert_ne.
Qed.

Lemma off_dom type handler context (all : EventHandlerMap) :
  dom (off type handler context all) = dom all.
Proof.
  unfold off. destruct (all !! type) as [hs|] eqn:E; [|done].
  assert (type ∈ dom all) by (apply elem_of_dom; by eexists).
  destruct handler; rewrite dom_insert_L;
    by apply subseteq_union_1_L, singleton_subseteq_l.
Qed.

(** X1: [off], with or without a callback, only ever deletes: the map has
    the same keys afterwards, and the list of its key is what is left of
    the old one after dropping items, in the same order. *)
Theorem off_only_deletes (K : EventType) (handler : option Fn)
    (context : Value) (all0 : EventHandlerMap) :
  dom (off K handler context all0) = dom all0
  ∧ sublist (listeners K (off K handler context all0)) (listeners K all0).
Proof.
  split.
  - apply off_dom.
  - apply listeners_off_sublist.
Qed.

(** X2: registering a handler and removing it again with the same callback
    and context gives every list back, provided the context is strictly
    equal to itself and no item already in the list has that callback and
    context; a key that was absent is left behind with an empty list. *)
Theorem on_then_off_restores (K : EventType) (h : Fn) (context : Value)
    (o : bool) (all0 : EventHandlerMap) :
  context ≠ VNaN →
  Forall (λ x, matches h context x = false) (listeners K all0) →
  Z.of_nat (length (listeners K all0)) + 1 < 2 ^ 32 →
  off K (Some h) context (on K h context o all0)
  = <[K := listeners K all0]> all0.
Proof.
  intros Hnan Hnone Hsize.
  assert (matches h context {| fn := h; ctx := context; once := o |} = true)
    as Hself by (by apply matches_true).
  assert (on K h context o all0
          = <[K := listeners K all0
                     ++ [{| fn := h; ctx := context; once := o |}]]> all0)
    as ->.
  { unfold on, listeners. by destruct (all0 !! K). }
  erewrite off_handler; [|apply lookup_insert_eq|].
  - rewrite insert_insert_eq, remove_first_first by done.
    by rewrite app_nil_r.
  - unfold array_sized. rewrite length_app. simpl. lia.
Qed.

Lemma on_then_off_restores_witness :
  off Scenario.foo (Some 2%nat) VUndefined
    (on Scenario.foo 2%nat VUndefined true {[ Scenario.foo := [Scenario.A] ]})
  = <[Scenario.foo := [Scenario.A]]> {[ Scenario.foo := [Scenario.A] ]}
  ∧ off Scenario.foo (Some 2%nat) VUndefined
      (on Scenario.foo 2%nat VUndefined true ∅)
    = <[Scenario.foo := []]> ∅.
Proof.
  split.
  - pose proof (on_then_off_restores Scenario.foo 2%nat VUndefined true
                  {[ Scenario.foo := [Scenario.A] ]}) as H.
    vm_compute. vm_compute in H. apply H.
    + discriminate.
    + by repeat constructor.
    + done.
  - pose proof (on_then_off_restores Scenario.foo 2%nat VUndefined true ∅)
      as H.
    vm_compute. vm_compute in H. apply H.
    + discriminate.
    + constructor.
    + done.
Defined.

(** X3: [off] with the context [NaN] removes nothing, whatever is
    registered: [item.ctx === context] is false for every item.  A handler
    registered with [NaN] as its context can only be removed by clearing
    its key. *)
Theorem off_nan_context_removes_nothing (K : EventType) (h : Fn)
    (all0 : EventHandlerMap) :
  array_sized (listeners K all0) →
  off K (Some h) VNaN all0 = all0.
Proof.
  intros Hsize. unfold listeners in Hsize.
  destruct (all0 !! K) as [hs|] eqn:E; simpl in Hsize.
  - erewrite off_handler by done.
    rewrite remove_first_none; [by apply insert_id|].
    apply Forall_forall. intros x _. apply matches_nan.
  - by apply off_absent.
Qed.

Lemma off_nan_context_removes_nothing_witness :
  let all0 := on Scenario.foo 1%nat VNaN false ∅ in
  off Scenario.foo (Some 1%nat) VNaN all0 = all0.
Proof.
  intros all0.
  apply (off_nan_context_removes_nothing Scenario.foo 1%nat all0).
  by vm_compute.
Defined.

(** ** Method calls on different keys *)

Lemma method_lookup_ne (c : MethodCall) (all : EventHandlerMap) type :
  method_key c ≠ type → method c all !! type = all !! type.
Proof.
  destruct c as [K h ctx o|K h ctx]; simpl; intros Hne.
  - unfold on. destruct (all !! K); by rewrite lookup_insert_ne.
  - by apply off_lookup_ne.
Qed.


(** ** What [emit] leaves behind *)

Lemma dispatch_nil prog emit_rec type args s :
  listeners type (all s) = [] →
  dispatch prog emit_rec type args s = Some (Normal, s).
Proof.
  unfold dispatch, listeners.
  destruct (all s !! type) as [hs|]; simpl; [|done]. by intros ->.
Qed.

(** X5: emitting an event that has no handler, when there is no wildcard
    handler either, calls nothing and changes nothing, whether the keys are
    absent from the map or present with empty lists, and whatever the
    functions of the program do. *)
Theorem emit_without_handlers prog fuel (K : EventType) (x : Value)
    (s : State) :
  listeners K (all s) = [] →
  listeners wildcard (all s) = [] →
  emit prog (S fuel) K x s = Some (Normal, s).
Proof.
  intros HK Hw. simpl. fold (emit prog fuel).
  rewrite dispatch_nil by done. by apply dispatch_nil.
Qed.

Lemma emit_without_handlers_witness :
  emit Scenario.a_removes_b 1 Scenario.foo (VNum 1)
    (Scenario.start {[ TStr "bar" := [Scenario.A]; Scenario.foo := [] ]})
  = Some (Normal,
          Scenario.start {[ TStr "bar" := [Scenario.A]; Scenario.foo := [] ]}).
Proof.
  apply (emit_without_handlers Scenario.a_removes_b 0 Scenario.foo (VNum 1)
           (Scenario.start
              {[ TStr "bar" := [Scenario.A]; Scenario.foo := [] ]}));
    reflexivity.
Defined.

Lemma auto_remove_dom type snapshot (all : EventHandlerMap) :
  dom (auto_remove type snapshot all) = dom all.
Proof.
  revert all. induction snapshot as [|r snapshot IH]; intros all; [done|].
  simpl. rewrite IH. destruct (once r); [apply off_dom|done].
Qed.


Lemma auto_remove_no_once type snapshot (all : EventHandlerMap) :
  Forall (λ r, once r = false) snapshot → auto_remove type snapshot all = all.
Proof.
  intros Hno. revert all.
  induction Hno as [|r snapshot Hr _ IH]; intros all; [done|].
  simpl. by rewrite Hr, IH.
Qed.

(** X6: with handlers that leave the emitter alone, [emit(K, x)] returns
    and only ever removes items: the map keeps its keys, and every list is
    what is left of the old one after dropping items, in the same order. *)
Theorem emit_footprint prog fuel (K : EventType) (x : Value) (s : State) :
  Forall (quiet prog) (listeners K (all s)) →
  Forall (quiet prog) (listeners wildcard (all s)) →
  ∃ s',
    emit prog (S fuel) K x s = Some (Normal, s')
    ∧ dom (all s') = dom (all s)
    ∧ (∀ K', sublist (listeners K' (all s')) (listeners K' (all s))).
Proof.
  intros HK Hw. eexists. split; [by apply emit_quiet|]. simpl. split.
  - by rewrite !auto_remove_dom.
  - intros K'. etransitivity; apply listeners_auto_remove_sublist.
Qed.

Lemma emit_footprint_witness :
  let s :=
    Scenario.start
      {[ Scenario.foo := [Scenario.A_once; Scenario.B];
         TStr "bar" := [Scenario.C] ]} in
  ∃ s',
    emit Scenario.idle 1 Scenario.foo (VNum 1) s = Some (Normal, s')
    ∧ dom (all s') = dom (all s)
    ∧ (∀ K', sublist (listeners K' (all s')) (listeners K' (all s))).
Proof.
  intros s.
  apply (emit_footprint Scenario.idle 0 Scenario.foo (VNum 1) s);
    by repeat constructor.
Defined.

(** X7: when no handler of K or of ['*'] is a [once] handler (and the
    handlers leave the emitter alone), [emit(K, x)] does not change the
    map at all, so that a second [emit] makes the same calls again. *)
Theorem emit_without_once_is_repeatable prog fuel (K : EventType)
    (x y : Value) (s : State) :
  Forall (quiet prog) (listeners K (all s)) →
  Forall (quiet prog) (listeners wildcard (all s)) →
  Forall (λ r, once r = false) (listeners K (all s)) →
  Forall (λ r, once r = false) (listeners wildcard (all s)) →
  let round v :=
    map (called [v]) (listeners K (all s))
      ++ map (called [key_value K; v]) (listeners wildcard (all s)) in
  ∃ s1 s2,
    emit prog (S fuel) K x s = Some (Normal, s1)
    ∧ all s1 = all s
    ∧ calls s1 = calls s ++ round x
    ∧ emit prog (S fuel) K y s1 = Some (Normal, s2)
    ∧ all s2 = all s
    ∧ calls s2 = calls s ++ round x ++ round y.
Proof.
  intros HK Hw HKo Hwo round.
  assert (∀ v t, all t = all s →
            emit prog (S fuel) K v t
            = Some (Normal, {| all := all s; calls := calls t ++ round v |}))
    as Hround.
  { intros v t Ht. rewrite emit_quiet; rewrite Ht; try done.
    rewrite (auto_remove_no_once K) by done.
    by rewrite (auto_remove_no_once wildcard) by done. }
  eexists _, _. split_and!.
  - by apply Hround.
  - done.
  - done.
  - by apply Hround.
  - done.
  - simpl. by rewrite (assoc_L (++)).
Qed.

Lemma emit_without_once_is_repeatable_witness :
  let s :=
    Scenario.start {[ Scenario.foo := [Scenario.A]; wildcard := [Scenario.C] ]}
  in
  ∃ s1 s2,
    emit Scenario.idle 1 Scenario.foo (VNum 1) s = Some (Normal, s1)
    ∧ all s1 = all s
    ∧ calls s1
      = [called [VNum 1] Scenario.A; called [VStr "foo"; VNum 1] Scenario.C]
    ∧ emit Scenario.idle 1 Scenario.foo (VNum 2) s1 = Some (Normal, s2)
    ∧ all s2 = all s
    ∧ calls s2
      = [called [VNum 1] Scenario.A; called [VStr "foo"; VNum 1] Scenario.C;
         called [VNum 2] Scenario.A; called [VStr "foo"; VNum 2] Scenario.C].
Proof.
  intros s.
  apply (emit_without_once_is_repeatable Scenario.idle 0 Scenario.foo
           (VNum 1) (VNum 2) s); by repeat constructor.
Defined.

(** ** Lists of one-time handlers *)

Lemma once_sweep_tail xs tail :
  once_sweep xs (xs ++ tail) = once_sweep xs xs ++ tail.
Proof.
  destruct (once_sweep_prefix 0%nat VNaN xs) with (L := @nil HandlerListItem)
    as (L' & _ & Hsweep).
  - apply Forall_forall. intros x _. by rewrite matches_nan.
  - constructor.
  - simpl in Hsweep. rewrite Hsweep.
    specialize (Hsweep []). rewrite !app_nil_r in Hsweep. by rewrite Hsweep.
Qed.


Lemma lookup_listeners type (all : EventHandlerMap) :
  type ∈ dom all → all !! type = Some (listeners type all).
Proof.
  intros [hs Hhs]%elem_of_dom. unfold listeners. by rewrite Hhs.
Qed.



(** ** Handlers that emit *)

(** X9: nothing in [emit] guards against re-entry.  When the list of K
    holds, after handlers that leave the emitter alone, a handler that
    starts by emitting K again, the nested calls of [emit] never come to an
    end: no bound on their depth lets [emit(K, x)] return. *)
Theorem self_emitting_handler_never_returns prog (K : EventType)
    (r : HandlerListItem) (rest : list HandlerListItem) (v : Value) :
  (∀ args, ∃ body, prog (fn r) (ctx r) args = ActEmit K v :: body) →
  ∀ fuel x s pre,
    all s !! K = Some (pre ++ r :: rest) →
    array_sized (pre ++ r :: rest) →
    Forall (quiet prog) pre →
    emit prog fuel K x s = None.
Proof.
  intros Hr. induction fuel as [|fuel IH]; intros x s pre HK Hsize Hpre.
  - done.
  - simpl. fold (emit prog fuel). unfold dispatch. rewrite HK.
    rewrite array_map_app, array_map_quiet by done. simpl.
    unfold invoke, call. destruct (Hr [x]) as [body ->]. simpl.
    rewrite (IH v _ (once_sweep pre pre)); [done| | |].
    + simpl. rewrite lookup_listeners.
      * rewrite listeners_auto_remove;
          rewrite (listeners_lookup _ _ _ HK); [|done].
        by rewrite once_sweep_tail.
      * rewrite auto_remove_dom. apply elem_of_dom. by rewrite HK.
    + unfold array_sized in *. rewrite length_app in *.
      pose proof (sublist_length _ _ (once_sweep_sublist pre pre)). lia.
    + eapply Forall_sublist; [apply once_sweep_sublist|done].
Qed.

Lemma self_emitting_handler_never_returns_witness :
  emit (λ f _ _, match f with
                 | 1%nat => [ActEmit Scenario.foo (VNum 0)]
                 | _ => []
                 end)
    50 Scenario.foo (VNum 1)
    (Scenario.start {[ Scenario.foo := [Scenario.B_once; Scenario.A] ]})
  = None.
Proof.
  apply (self_emitting_handler_never_returns _ Scenario.foo Scenario.A []
           (VNum 0)) with (pre := [Scenario.B_once]).
  - intros args. by eexists.
  - reflexivity.
  - by vm_compute.
  - by repeat constructor.
Defined.

(** ** Handlers that register wildcard handlers *)



(** ** What a throw leaves behind *)



(** ** Nested [emit] *)






(** ** Emitters and their maps *)

Section Emitters.
Import Factory.

Lemma invoke_methods_lookup_ne e (cs : list MethodCall) (h : Heap) l :
  l ≠ all e →
  foldl (λ h c, invoke_method e c h) h cs !! l = h !! l.
Proof.
  intros Hne. revert h. induction cs as [|c cs IH]; intros h; simpl; [done|].
  rewrite IH. unfold invoke_method. by rewrite lookup_insert_ne.
Qed.

Lemma invoke_methods_contents e (cs : list MethodCall) (h : Heap) :
  contents (foldl (λ h c, invoke_method e c h) h cs) (all e)
  = foldl (λ a c, method c a) (contents h (all e)) cs.
Proof.
  revert h. induction cs as [|c cs IH]; intros h; simpl; [done|].
  rewrite IH. unfold invoke_method. by rewrite contents_insert.
Qed.

End Emitters.

(** X13: two emitters made by [mitt()] without argument have maps of
    their own.  Whatever is registered or removed through the first, the
    map of the second stays empty and the maps that existed before are
    untouched; the first one's map holds exactly what its calls made of an
    empty map. *)
Theorem fresh_emitters_do_not_share (h h1 h2 : Factory.Heap)
    (e1 e2 : Factory.Emitter) (cs : list MethodCall) :
  Factory.mitt None h = (e1, h1) →
  Factory.mitt None h1 = (e2, h2) →
  let h' := foldl (λ h c, Factory.invoke_method e1 c h) h2 cs in
  Factory.all e1 ≠ Factory.all e2
  ∧ Factory.contents h' (Factory.all e2) = ∅
  ∧ Factory.contents h' (Factory.all e1) = foldl (λ a c, method c a) ∅ cs
  ∧ (∀ l, l ∈ dom h → h' !! l = h !! l).
Proof.
  unfold Factory.mitt, Factory.new_Map. intros [= <- <-] [= <- <-].
  simpl in *.
  set (l1 := fresh (dom h)) in *.
  set (l2 := fresh (dom (<[l1 := ∅]> h))) in *.
  assert (l1 ∉ dom h) as H1 by apply is_fresh.
  assert (l2 ∉ dom (<[l1 := ∅]> h)) as H2 by apply is_fresh.
  assert (l1 ≠ l2) as Hne.
  { intros Heq. apply H2. rewrite <- Heq, dom_insert_L.
    apply elem_of_union_l. by apply elem_of_singleton. }
  split_and!.
  - done.
  - unfold Factory.contents.
    rewrite invoke_methods_lookup_ne by (simpl; congruence).
    by rewrite lookup_insert_eq.
  - rewrite (invoke_methods_contents {| Factory.all := l1 |}). simpl.
    unfold Factory.contents.
    by rewrite lookup_insert_ne, lookup_insert_eq by congruence.
  - intros l Hl.
    assert (l ≠ l1) by (intros ->; done).
    assert (l ≠ l2).
    { intros ->. apply H2. rewrite dom_insert_L. by apply elem_of_union_r. }
    rewrite invoke_methods_lookup_ne by done.
    by rewrite !lookup_insert_ne.
Qed.

Lemma fresh_emitters_do_not_share_witness :
  let h : Factory.Heap := {[ 0%nat := {[ Scenario.foo := [Scenario.C] ]} ]} in
  let e1 := (Factory.mitt None h).1 in
  let h1 := (Factory.mitt None h).2 in
  let e2 := (Factory.mitt None h1).1 in
  let h2 := (Factory.mitt None h1).2 in
  let cs := [CallOn Scenario.foo 1%nat VUndefined false] in
  let h' := foldl (λ h c, Factory.invoke_method e1 c h) h2 cs in
  Factory.all e1 ≠ Factory.all e2
  ∧ Factory.contents h' (Factory.all e2) = ∅
  ∧ Factory.contents h' (Factory.all e1) = foldl (λ a c, method c a) ∅ cs
  ∧ (∀ l, l ∈ dom h → h' !! l = h !! l).
Proof.
  intros h e1 h1 e2 h2 cs h'.
  apply (fresh_emitters_do_not_share h h1 h2 e1 e2 cs).
  - subst e1 h1. by destruct (Factory.mitt None h).
  - subst e2 h2. by destruct (Factory.mitt None h1).
Defined.


